(** * keycheb: Chebyshev series evaluation by Clenshaw's recurrence

    A shallow embedding of [keycheb.py]: the reference oracle [t] / [tpoly]
    and the evaluator [clenshaw].  Python floats are read as exact reals,
    Python ints as [Z], a NumPy coefficient array as [list R].  Subscripting
    may raise [IndexError] and the recursion of [t] may fail to return, so
    every function of the script lives in a small outcome monad. *)

From Stdlib Require Import Reals List ZArith Lia Lra.
Import ListNotations.

Open Scope R_scope.

(** ** Outcomes of running a piece of the script *)

Inductive exn : Set := IndexError.

Inductive outcome (A : Type) : Type :=
| Ret (v : A)          (* normal return *)
| Raise (e : exn)      (* an exception escaped *)
| OutOfFuel.           (* the recursion budget was used up *)

Arguments Ret {A} v.
Arguments Raise {A} e.
Arguments OutOfFuel {A}.

Definition bind {A B : Type} (m : outcome A) (k : A -> outcome B) : outcome B :=
  match m with
  | Ret v => k v
  | Raise e => Raise e
  | OutOfFuel => OutOfFuel
  end.

Notation "x <- m ;; k" := (bind m (fun x => k))
  (at level 61, m at next level, right associativity).
Notation "' p <- m ;; k" := (bind m (fun p => k))
  (at level 61, p pattern, m at next level, right associativity).

(** A [for] loop over the items of [l] threading the loop variables [s]. *)
Fixpoint for_each {A S : Type} (body : S -> A -> outcome S)
         (l : list A) (s : S) : outcome S :=
  match l with
  | [] => Ret s
  | k :: l' => s' <- body s k ;; for_each body l' s'
  end.

(** ** Python built-ins used by the script *)

Definition len {A : Type} (a : list A) : Z := Z.of_nat (length a).

(** [a[i]]: a negative index counts from the end; anything outside
    [-len a <= i < len a] raises [IndexError]. *)
Definition getitem (a : list R) (i : Z) : outcome R :=
  let j := (if i <? 0 then i + len a else i)%Z in
  if (j <? 0)%Z then Raise IndexError
  else match nth_error a (Z.to_nat j) with
       | Some v => Ret v
       | None => Raise IndexError
       end.

(** [range(n)] is [0, 1, ..., n-1], empty when [n <= 0]. *)
Definition range (n : Z) : list Z := map Z.of_nat (seq 0 (Z.to_nat n)).

Definition reversed {A : Type} (l : list A) : list A := rev l.

(** [float(v)] on a value that is already a real number. *)
Definition float (v : R) : R := v.

(** ** The reference oracle *)

(** [t(n, x)].  The source recurses on [n - 1] and [n - 2] with no guard
    against negative [n]; [fuel] bounds the depth of the call stack. *)
Fixpoint t (fuel : nat) (n : Z) (x : R) : outcome R :=
  match fuel with
  | O => OutOfFuel
  | S fuel' =>
      if (n =? 0)%Z then Ret 1
      else if (n =? 1)%Z then Ret x
      else
        t1 <- t fuel' (n - 1) x ;;
        t2 <- t fuel' (n - 2) x ;;
        Ret (2 * x * t1 - t2)
  end.

(** [tpoly(c, x)]: [sum] starts from [0] and adds the items left to right. *)
Definition tpoly (fuel : nat) (c : list R) (x : R) : outcome R :=
  let n := len c in
  for_each (fun acc i =>
              ci <- getitem c i ;;
              ti <- t fuel i x ;;
              Ret (acc + ci * ti))
           (range n) 0.

(** The calls [t(n, x)] makes: to [n - 1] and to [n - 2], unless [n] is
    [0] or [1]. *)
Inductive t_calls : Z -> Z -> Prop :=
| t_calls_pred n : n <> 0%Z -> n <> 1%Z -> t_calls (n - 1) n
| t_calls_pred2 n : n <> 0%Z -> n <> 1%Z -> t_calls (n - 2) n.

(** ** The evaluator *)

(** One pass of the loop body: from [(b_{k+2}, b_{k+1})] to
    [(b_{k+1}, b_k)]. *)
Definition clenshaw_body (a : list R) (x : R)
           (b : R * R) (k : Z) : outcome (R * R) :=
  let '(b_k_plus_2, b_k_plus_1) := b in
  ak <- getitem a k ;;
  let b_k := float ak + 2 * x * b_k_plus_1 - b_k_plus_2 in
  Ret (b_k_plus_1, b_k).

(** The general path of [clenshaw]: seeding, the backward loop and the
    closing step, for a given [N]. *)
Definition clenshaw_general (a : list R) (x : R) (N : Z) : outcome R :=
  aN <- getitem a N ;;
  let b_k_plus_2 := 0 in
  let b_k_plus_1 := float aN in
  '(b_k_plus_2, b_k_plus_1) <-
     for_each (clenshaw_body a x) (reversed (range N))
              (b_k_plus_2, b_k_plus_1) ;;
  Ret (b_k_plus_1 - x * b_k_plus_2).

Definition clenshaw (a : list R) (x : R) : outcome R :=
  let N := (len a - 1)%Z in
  if (N <? 0)%Z then Ret 0
  else if (N =? 0)%Z then
    a0 <- getitem a 0 ;; Ret (float a0)
  else if (N =? 1)%Z then
    a0 <- getitem a 0 ;; a1 <- getitem a 1 ;; Ret (float (a0 + a1 * x))
  else clenshaw_general a x N.

(** ** Mathematical counterparts, following the specification's wording *)

(** The Chebyshev polynomials of the first kind:
    [T_0 = 1], [T_1 = x], [T_n = 2x T_{n-1} - T_{n-2}]. *)
Fixpoint T (n : nat) (x : R) : R :=
  match n with
  | O => 1
  | S m =>
      match m with
      | O => x
      | S m' => 2 * x * T m x - T m' x
      end
  end.

(** [cheb_sum a x j] is the sum of [a_i * T_{i+j}(x)] over the indices of [a]. *)
Fixpoint cheb_sum (a : list R) (x : R) (j : nat) : R :=
  match a with
  | [] => 0
  | ai :: a' => ai * T j x + cheb_sum a' x (S j)
  end.

(** Element-wise sum and scaling of coefficient sequences. *)
Fixpoint vadd (a b : list R) : list R :=
  match a, b with
  | ai :: a', bi :: b' => (ai + bi) :: vadd a' b'
  | _, _ => []
  end.

Definition vscale (k : R) (a : list R) : list R := map (Rmult k) a.

(** ** The backward recurrence, as a function of the coefficients *)

(** [bpair x a] is [(b_1, b_0)] for the series [a], both seeds zero: the
    pair the recurrence reaches after consuming [a] from its last
    coefficient to its first. *)
Fixpoint bpair (x : R) (a : list R) : R * R :=
  match a with
  | [] => (0, 0)
  | ak :: a' => let '(b2, b1) := bpair x a' in (b1, ak + 2 * x * b1 - b2)
  end.

(** [b_seq a x k] is [b_k]; it only depends on the coefficients from
    index [k] on. *)
Definition b_seq (a : list R) (x : R) (k : nat) : R := snd (bpair x (skipn k a)).

(** What the specification says of the sequence [b] for the series [a] of
    degree [N]: the two seeds and the three-term recurrence below [N]. *)
Definition backward_recurrence (a : list R) (x : R) (N : nat)
           (b : nat -> R) : Prop :=
  b (S N) = 0 /\
  b N = nth N a 0 /\
  forall k, (k < N)%nat -> b k = nth k a 0 + 2 * x * b (S k) - b (S (S k)).

(** The solution of the recurrence for [[1, 2, 3]] at [x = 1]. *)
Definition b_123 (k : nat) : R :=
  match k with
  | 0%nat => 14
  | 1%nat => 8
  | 2%nat => 3
  | _ => 0
  end.

(** ** The script around the three functions *)








(** [t] again, returning next to its value the number of calls of [t] made
    to compute it (this one included). *)
Fixpoint t_counted (fuel : nat) (n : Z) (x : R) : outcome (R * nat) :=
  match fuel with
  | O => OutOfFuel
  | S fuel' =>
      if (n =? 0)%Z then Ret (1, 1%nat)
      else if (n =? 1)%Z then Ret (x, 1%nat)
      else
        '(t1, c1) <- t_counted fuel' (n - 1) x ;;
        '(t2, c2) <- t_counted fuel' (n - 2) x ;;
        Ret (2 * x * t1 - t2, S (c1 + c2))
  end.

(** The item the generator inside [tpoly] adds for the index [i]. *)
Definition tpoly_body (fuel : nat) (c : list R) (x : R)
  : R -> Z -> outcome R :=
  fun acc i => ci <- getitem c i ;; ti <- t fuel i x ;; Ret (acc + ci * ti).

(** ** Sums used to state the properties *)

Fixpoint fib (n : nat) : nat :=
  match n with
  | O => 0%nat
  | S m =>
      match m with
      | O => 1%nat
      | S m' => (fib m + fib m')%nat
      end
  end.




(** The coefficients with the sign of every odd-index one flipped. *)
Fixpoint alternate (a : list R) : list R :=
  match a with
  | [] => []
  | c :: a' => c :: map Ropp (alternate a')
  end.

(** Evaluation of the script on literal inputs, leaving the real
    arithmetic untouched. *)
Ltac run_script :=
  cbv -[Rplus Rmult Rminus Ropp Rinv Rdiv IZR Q2R].

(** ** Basic facts about the built-ins *)

Example range_3 : range 3 = [0; 1; 2]%Z.
Proof. reflexivity. Qed.

Example range_negative : range (-1) = [].
Proof. reflexivity. Qed.

Example reversed_range_3 : reversed (range 3) = [2; 1; 0]%Z.
Proof. reflexivity. Qed.

Example getitem_last (u v : R) : getitem [u; v] (-1) = Ret v.
Proof. reflexivity. Qed.

Example getitem_past_end (u v : R) : getitem [u; v] 2 = Raise IndexError.
Proof. reflexivity. Qed.

Example getitem_before_start (u v : R) : getitem [u; v] (-3) = Raise IndexError.
Proof. reflexivity. Qed.

Example t_shallow_stack (x : R) : t 2 3 x = OutOfFuel.
Proof. reflexivity. Qed.

Example t_3 (x : R) : t 3 3 x = Ret (2 * x * (2 * x * x - 1) - x).
Proof. reflexivity. Qed.

Lemma bind_ret {A B : Type} (v : A) (k : A -> outcome B) :
  bind (Ret v) k = k v.
Proof. reflexivity. Qed.

Lemma for_each_app {A S : Type} (body : S -> A -> outcome S) l1 l2 s :
  for_each body (l1 ++ l2) s = (s' <- for_each body l1 s ;; for_each body l2 s').
Proof.
  revert s; induction l1 as [|k l1 IH]; intros s; simpl; [reflexivity|].
  destruct (body s k); simpl; auto.
Qed.

(** A non-negative index below the length reads the element there. *)
Lemma getitem_nat (a : list R) (k : nat) :
  (k < length a)%nat -> getitem a (Z.of_nat k) = Ret (nth k a 0).
Proof.
  intros Hk; unfold getitem.
  destruct (Z.ltb_spec (Z.of_nat k) 0) as [Hn|_]; [lia|].
  destruct (Z.ltb_spec (Z.of_nat k) 0) as [Hn|_]; [lia|].
  rewrite Nat2Z.id.
  destruct (nth_error a k) as [v|] eqn:E.
  - now rewrite (nth_error_nth _ _ _ E).
  - apply nth_error_None in E; lia.
Qed.

Lemma getitem_middle (pre suf : list R) (v : R) :
  getitem (pre ++ v :: suf) (len pre) = Ret v.
Proof.
  unfold len; rewrite getitem_nat.
  - now rewrite nth_middle.
  - rewrite length_app; simpl; lia.
Qed.

Lemma range_of_nat (n : nat) : range (Z.of_nat n) = map Z.of_nat (seq 0 n).
Proof. unfold range; now rewrite Nat2Z.id. Qed.

Lemma length_range (n : nat) : length (range (Z.of_nat n)) = n.
Proof. now rewrite range_of_nat, length_map, length_seq. Qed.

(** Item [i] of [reversed(range(n))] is [n - 1 - i]. *)
Lemma nth_reversed_range (n i : nat) :
  (i < n)%nat ->
  nth i (reversed (range (Z.of_nat n))) 0%Z = (Z.of_nat n - 1 - Z.of_nat i)%Z.
Proof.
  intros Hi; unfold reversed.
  rewrite rev_nth by (rewrite length_range; exact Hi).
  rewrite length_range, range_of_nat.
  change 0%Z with (Z.of_nat 0); rewrite map_nth, seq_nth by lia.
  lia.
Qed.

Lemma firstn_snoc {A : Type} (l : list A) (i : nat) (d : A) :
  (i < length l)%nat -> firstn (S i) l = firstn i l ++ [nth i l d].
Proof.
  revert i; induction l as [|h l IH]; intros i Hi; simpl in Hi; [lia|].
  destruct i as [|i]; [reflexivity|].
  simpl; f_equal; apply IH; lia.
Qed.

(** ** The oracle returns the Chebyshev polynomials *)

Section Oracle.

Variable x : R.

Lemma T_rec (n : nat) : T (S (S n)) x = 2 * x * T (S n) x - T n x.
Proof. reflexivity. Qed.

(** A stack of depth [fuel] is enough for every [n < fuel]. *)
Lemma t_returns (fuel n : nat) :
  (n < fuel)%nat -> t fuel (Z.of_nat n) x = Ret (T n x).
Proof.
  revert n; induction fuel as [|fuel IH]; intros n Hn; [lia|].
  destruct n as [|[|n]]; try reflexivity.
  cbn [t].
  destruct (Z.eqb_spec (Z.of_nat (S (S n))) 0) as [E|_]; [lia|].
  destruct (Z.eqb_spec (Z.of_nat (S (S n))) 1) as [E|_]; [lia|].
  replace (Z.of_nat (S (S n)) - 1)%Z with (Z.of_nat (S n)) by lia.
  replace (Z.of_nat (S (S n)) - 2)%Z with (Z.of_nat n) by lia.
  rewrite !IH by lia.
  reflexivity.
Qed.

(** Below zero the recursion never reaches a base case. *)
Lemma t_negative (fuel : nat) (n : Z) : (n < 0)%Z -> t fuel n x = OutOfFuel.
Proof.
  revert n; induction fuel as [|fuel IH]; intros n Hn; [reflexivity|].
  cbn [t].
  destruct (Z.eqb_spec n 0) as [E|_]; [lia|].
  destruct (Z.eqb_spec n 1) as [E|_]; [lia|].
  rewrite IH by lia; reflexivity.
Qed.

(** The calls of [t] descend along a well-founded order on [n >= 0]. *)
Lemma t_calls_acc (n : nat) :
  Acc t_calls (Z.of_nat n) /\ Acc t_calls (Z.of_nat (S n)).
Proof.
  induction n as [|n [IH0 IH1]].
  - split; constructor; intros m Hm; inversion Hm; lia.
  - split; [exact IH1|].
    constructor; intros m Hm; inversion Hm; subst.
    + replace (Z.of_nat (S (S n)) - 1)%Z with (Z.of_nat (S n)) by lia; exact IH1.
    + replace (Z.of_nat (S (S n)) - 2)%Z with (Z.of_nat n) by lia; exact IH0.
Qed.

(** The summation loop of [tpoly], started anywhere in the sequence. *)
Lemma tpoly_loop (fuel : nat) (suf pre : list R) (acc : R) :
  (length (pre ++ suf) <= fuel)%nat ->
  for_each (fun acc i =>
              ci <- getitem (pre ++ suf) i ;;
              ti <- t fuel i x ;;
              Ret (acc + ci * ti))
           (map Z.of_nat (seq (length pre) (length suf))) acc
  = Ret (acc + cheb_sum suf x (length pre)).
Proof.
  revert pre acc; induction suf as [|s suf IH]; intros pre acc Hf.
  - simpl; f_equal; ring.
  - cbn [length seq map for_each cheb_sum].
    change (Z.of_nat (length pre)) with (len pre).
    rewrite getitem_middle, bind_ret.
    unfold len; rewrite t_returns, !bind_ret
      by (rewrite length_app in Hf; simpl in Hf; lia).
    replace (pre ++ s :: suf) with ((pre ++ [s]) ++ suf) in *
      by (now rewrite <- app_assoc).
    replace (S (length pre)) with (length (pre ++ [s]))
      by (rewrite length_app; simpl; lia).
    rewrite IH by exact Hf.
    f_equal; ring.
Qed.

Lemma tpoly_returns (fuel : nat) (c : list R) :
  (length c <= fuel)%nat -> tpoly fuel c x = Ret (cheb_sum c x 0).
Proof.
  intros Hf; unfold tpoly.
  unfold len at 1; rewrite range_of_nat.
  etransitivity; [exact (tpoly_loop fuel c [] 0 Hf)|].
  f_equal; simpl; ring.
Qed.

End Oracle.

(** ** The short series *)

Lemma clenshaw_nil (x : R) : clenshaw [] x = Ret 0.
Proof. reflexivity. Qed.

Lemma clenshaw_one (c x : R) : clenshaw [c] x = Ret c.
Proof. reflexivity. Qed.

Lemma clenshaw_two (a0 a1 x : R) : clenshaw [a0; a1] x = Ret (a0 + a1 * x).
Proof. reflexivity. Qed.

(** ** The backward recurrence *)

Section Recurrence.

Variables (a : list R) (x : R).

(** After [i] passes the loop variables hold [b_{N-i+1}] and [b_{N-i}]. *)
Lemma clenshaw_loop (N : nat) (b : nat -> R) :
  length a = S N -> backward_recurrence a x N b ->
  forall i, (i <= N)%nat ->
  for_each (clenshaw_body a x)
           (firstn i (reversed (range (Z.of_nat N))))
           (0, float (nth N a 0))
  = Ret (b (S (N - i))%nat, b (N - i)%nat).
Proof.
  intros Hlen (Hseed1 & Hseed0 & Hrec).
  induction i as [|i IH]; intros Hi.
  - rewrite Nat.sub_0_r, Hseed1, Hseed0; reflexivity.
  - rewrite (firstn_snoc _ i 0%Z)
      by (unfold reversed; rewrite length_rev, length_range; lia).
    rewrite for_each_app, IH, bind_ret by lia.
    rewrite nth_reversed_range by lia.
    replace (Z.of_nat N - 1 - Z.of_nat i)%Z with (Z.of_nat (N - S i)) by lia.
    cbn [for_each clenshaw_body].
    rewrite getitem_nat, !bind_ret by lia.
    unfold float.
    replace (N - i)%nat with (S (N - S i)) by lia.
    rewrite (Hrec (N - S i)%nat) by lia.
    reflexivity.
Qed.

Lemma clenshaw_general_run (N : nat) (b : nat -> R) :
  length a = S N -> backward_recurrence a x N b ->
  clenshaw_general a x (Z.of_nat N) = Ret (b 0%nat - x * b 1%nat).
Proof.
  intros Hlen Hb; unfold clenshaw_general.
  rewrite getitem_nat, bind_ret by lia.
  pose proof (clenshaw_loop N b Hlen Hb N (le_n N)) as Hloop.
  rewrite firstn_all2 in Hloop
    by (unfold reversed; rewrite length_rev, length_range; lia).
  rewrite Hloop, bind_ret, Nat.sub_diag; reflexivity.
Qed.

(** On three or more coefficients [clenshaw] takes the general path. *)
Lemma clenshaw_long (N : nat) :
  length a = S N -> (2 <= N)%nat ->
  clenshaw a x = clenshaw_general a x (Z.of_nat N).
Proof.
  intros Hlen HN; unfold clenshaw, len; rewrite Hlen.
  replace (Z.of_nat (S N) - 1)%Z with (Z.of_nat N) by lia.
  destruct (Z.ltb_spec (Z.of_nat N) 0) as [E|_]; [lia|].
  destruct (Z.eqb_spec (Z.of_nat N) 0) as [E|_]; [lia|].
  destruct (Z.eqb_spec (Z.of_nat N) 1) as [E|_]; [lia|].
  reflexivity.
Qed.

(** [b_seq] is a solution of the recurrence. *)
Lemma bpair_fst (l : list R) : fst (bpair x l) = snd (bpair x (tl l)).
Proof.
  destruct l as [|h l]; [reflexivity|].
  simpl; destruct (bpair x l); reflexivity.
Qed.

Lemma tl_skipn (l : list R) (k : nat) : tl (skipn k l) = skipn (S k) l.
Proof.
  revert l; induction k as [|k IH]; intros [|h l]; try reflexivity.
  exact (IH l).
Qed.

Lemma nth_skipn_head (l r : list R) (k : nat) (v : R) :
  skipn k l = v :: r -> nth k l 0 = v.
Proof.
  revert l; induction k as [|k IH]; intros [|h l] E; simpl in E;
    try discriminate.
  - now inversion E.
  - exact (IH l E).
Qed.

Lemma skipn_nonempty (l : list R) (k : nat) :
  (k < length l)%nat -> exists v r, skipn k l = v :: r /\ length r = (length l - S k)%nat.
Proof.
  intros Hk; destruct (skipn k l) as [|v r] eqn:E;
    apply (f_equal (@length R)) in E as El; rewrite length_skipn in El;
    simpl in El; [lia|].
  exists v, r; split; [reflexivity|lia].
Qed.

Lemma b_seq_recurrence (N : nat) :
  length a = S N -> backward_recurrence a x N (b_seq a x).
Proof.
  intros Hlen; unfold backward_recurrence, b_seq; repeat split.
  - rewrite skipn_all2 by lia; reflexivity.
  - destruct (skipn_nonempty a N) as (v & r & E & Hr); [lia|].
    rewrite (nth_skipn_head _ _ _ _ E), E.
    destruct r; [simpl; ring | simpl in Hr; lia].
  - intros k Hk.
    rewrite <- !tl_skipn, <- !bpair_fst.
    destruct (skipn_nonempty a k) as (v & r & E & _); [lia|].
    rewrite (nth_skipn_head _ _ _ _ E), E.
    simpl; destruct (bpair x r); reflexivity.
Qed.

(** Clenshaw's identity, for the series shifted up by [j + 1]. *)
Lemma clenshaw_identity_shift (l : list R) (j : nat) :
  cheb_sum l x (S j)
  = snd (bpair x l) * T (S j) x - fst (bpair x l) * T j x.
Proof.
  revert j; induction l as [|h l IH]; intros j.
  - simpl; ring.
  - cbn [cheb_sum bpair]; rewrite IH, T_rec.
    destruct (bpair x l) as [b2 b1]; cbn [fst snd]; ring.
Qed.

Lemma clenshaw_identity (l : list R) :
  cheb_sum l x 0 = snd (bpair x l) - x * fst (bpair x l).
Proof.
  destruct l as [|h l]; [simpl; ring|].
  cbn [cheb_sum bpair]; rewrite clenshaw_identity_shift.
  destruct (bpair x l) as [b2 b1]; cbn [fst snd T]; ring.
Qed.

(** The evaluator returns the value of the series. *)
Lemma clenshaw_value : clenshaw a x = Ret (cheb_sum a x 0).
Proof.
  destruct a as [|a0 [|a1 [|a2 r]]] eqn:Ea.
  - reflexivity.
  - rewrite clenshaw_one; f_equal; simpl; ring.
  - rewrite clenshaw_two; f_equal; simpl; ring.
  - rewrite <- Ea.
    assert (Hlen : length a = S (S (S (length r)))) by (now rewrite Ea).
    rewrite (clenshaw_long _ Hlen) by lia.
    rewrite (clenshaw_general_run _ _ Hlen (b_seq_recurrence _ Hlen)).
    rewrite clenshaw_identity; unfold b_seq.
    rewrite <- tl_skipn, <- bpair_fst; reflexivity.
Qed.

End Recurrence.

(** ** Linearity of the series value *)

Lemma cheb_sum_vadd (a b : list R) (x : R) (j : nat) :
  length a = length b ->
  cheb_sum (vadd a b) x j = cheb_sum a x j + cheb_sum b x j.
Proof.
  revert b j; induction a as [|ai a IH]; intros [|bi b] j Hlen;
    simpl in Hlen; try discriminate.
  - simpl; ring.
  - cbn [vadd cheb_sum]; rewrite IH by congruence; ring.
Qed.

Lemma cheb_sum_vscale (k : R) (a : list R) (x : R) (j : nat) :
  cheb_sum (vscale k a) x j = k * cheb_sum a x j.
Proof.
  revert j; induction a as [|ai a IH]; intros j.
  - simpl; ring.
  - unfold vscale in *; cbn [map cheb_sum]; rewrite IH; ring.
Qed.

(** Without the guard for the empty series the seeding [a[N]] with
    [N = -1] would raise. *)
Lemma clenshaw_general_nil (x : R) :
  clenshaw_general [] x (len (@nil R) - 1) = Raise IndexError.
Proof. reflexivity. Qed.

(** * The specification's properties *)

(** C1: for every coefficient sequence [a] and every [x], [clenshaw(a, x)]
    equals the oracle [tpoly(a, x)] (run with a stack deep enough for the
    length of [a]), and both are the sum of [a_i * T_i(x)] with [T] given by
    [T_0 = 1], [T_1 = x], [T_n = 2x T_{n-1} - T_{n-2}]. *)
Theorem clenshaw_eq_tpoly (a : list R) (x : R) (extra : nat) :
  clenshaw a x = tpoly (length a + extra) a x /\
  clenshaw a x = Ret (cheb_sum a x 0).
Proof.
  split.
  - rewrite clenshaw_value, tpoly_returns by lia; reflexivity.
  - apply clenshaw_value.
Qed.

(** C2: on a sequence of length [N + 1 >= 3], for any [b] with
    [b_{N+1} = 0], [b_N = a[N]] and [b_k = a[k] + 2 x b_{k+1} - b_{k+2}] for
    [k < N], the loop of [clenshaw] holds [(b_{N-i+1}, b_{N-i})] after [i]
    passes, and [clenshaw(a, x)] returns [b_0 - x b_1]. *)
Theorem clenshaw_backward_recurrence
        (a : list R) (x : R) (N : nat) (b : nat -> R) :
  length a = S N -> (2 <= N)%nat ->
  b (S N) = 0 ->
  b N = nth N a 0 ->
  (forall k, (k < N)%nat -> b k = nth k a 0 + 2 * x * b (S k) - b (S (S k))) ->
  (forall i, (i <= N)%nat ->
     for_each (clenshaw_body a x)
              (firstn i (reversed (range (Z.of_nat N))))
              (0, float (nth N a 0))
     = Ret (b (S (N - i))%nat, b (N - i)%nat)) /\
  clenshaw a x = Ret (b 0%nat - x * b 1%nat).
Proof.
  intros Hlen HN Hs1 Hs0 Hrec.
  assert (Hb : backward_recurrence a x N b) by (repeat split; assumption).
  split.
  - apply clenshaw_loop; assumption.
  - rewrite (clenshaw_long a x N Hlen HN).
    apply clenshaw_general_run; assumption.
Qed.

Lemma clenshaw_backward_recurrence_witness :
  (forall i, (i <= 2)%nat ->
     for_each (clenshaw_body [1; 2; 3] 1)
              (firstn i (reversed (range (Z.of_nat 2))))
              (0, float (nth 2 [1; 2; 3] 0))
     = Ret (b_123 (S (2 - i))%nat, b_123 (2 - i)%nat)) /\
  clenshaw [1; 2; 3] 1 = Ret (b_123 0%nat - 1 * b_123 1%nat).
Proof.
  apply (clenshaw_backward_recurrence [1; 2; 3] 1 2 b_123).
  - reflexivity.
  - lia.
  - reflexivity.
  - reflexivity.
  - intros [|[|k]] Hk; simpl; [lra | lra | lia].
Defined.

(** C3: [clenshaw([], x) = 0], [clenshaw([c], x) = c] and
    [clenshaw([a0, a1], x) = a0 + a1 * x]. *)
Theorem clenshaw_degenerate (c a0 a1 x : R) :
  clenshaw [] x = Ret 0 /\
  clenshaw [c] x = Ret c /\
  clenshaw [a0; a1] x = Ret (a0 + a1 * x).
Proof. repeat split. Qed.

(** C4: [clenshaw] returns a real number on every coefficient sequence,
    the empty one included, and every [x]; in particular no subscript
    raises [IndexError]. *)
Theorem clenshaw_total (a : list R) (x : R) :
  (exists v, clenshaw a x = Ret v) /\
  clenshaw a x <> Raise IndexError /\
  clenshaw a x <> OutOfFuel.
Proof.
  rewrite clenshaw_value; repeat split; [eexists; reflexivity | | ]; discriminate.
Qed.

(** C5: for coefficient sequences [a] and [b] of equal length,
    [clenshaw(a + b, x) = clenshaw(a, x) + clenshaw(b, x)]. *)
Theorem clenshaw_linear (a b : list R) (x : R) :
  length a = length b ->
  exists va vb,
    clenshaw a x = Ret va /\
    clenshaw b x = Ret vb /\
    clenshaw (vadd a b) x = Ret (va + vb).
Proof.
  intros Hlen.
  exists (cheb_sum a x 0), (cheb_sum b x 0).
  rewrite !clenshaw_value, cheb_sum_vadd by exact Hlen.
  repeat split.
Qed.

Lemma clenshaw_linear_witness :
  length [1; 2; 3; 4] = length [5; 6; 7; 8] /\
  exists va vb,
    clenshaw [1; 2; 3; 4] 2 = Ret va /\
    clenshaw [5; 6; 7; 8] 2 = Ret vb /\
    clenshaw (vadd [1; 2; 3; 4] [5; 6; 7; 8]) 2 = Ret (va + vb).
Proof.
  split; [reflexivity|].
  apply (clenshaw_linear [1; 2; 3; 4] [5; 6; 7; 8] 2); reflexivity.
Defined.

(** C6: for every scalar [k], [clenshaw(k * a, x) = k * clenshaw(a, x)]. *)
Theorem clenshaw_homogeneous (k : R) (a : list R) (x : R) :
  exists v,
    clenshaw a x = Ret v /\
    clenshaw (vscale k a) x = Ret (k * v).
Proof.
  exists (cheb_sum a x 0).
  rewrite !clenshaw_value, cheb_sum_vscale.
  split; reflexivity.
Qed.

(** C7: run on one or two coefficients, the general path (seeds
    [b_{N+1} = 0], [b_N = a[N]], closing step [b_0 - x b_1]) returns what
    the short-circuit cases return: [c] on [[c]] and [a0 + a1 * x] on
    [[a0, a1]]. *)
Theorem clenshaw_general_short (c a0 a1 x : R) :
  clenshaw_general [c] x (len [c] - 1) = Ret c /\
  clenshaw_general [c] x (len [c] - 1) = clenshaw [c] x /\
  clenshaw_general [a0; a1] x (len [a0; a1] - 1) = Ret (a0 + a1 * x) /\
  clenshaw_general [a0; a1] x (len [a0; a1] - 1) = clenshaw [a0; a1] x.
Proof.
  rewrite clenshaw_one, clenshaw_two.
  assert (H1 : clenshaw_general [c] x (len [c] - 1) = Ret c)
    by (run_script; f_equal; ring).
  assert (H2 : clenshaw_general [a0; a1] x (len [a0; a1] - 1)
               = Ret (a0 + a1 * x))
    by (run_script; f_equal; ring).
  repeat split; assumption.
Qed.

(** C8: [clenshaw([0, 0, 1, 0], 0.5) = -0.5], which is [T_2(0.5)]. *)
Theorem clenshaw_T2_half :
  clenshaw [0; 0; 1; 0] 0.5 = Ret (-0.5) /\
  T 2 0.5 = -0.5 /\
  2 * (0.5 * 0.5) - 1 = -0.5.
Proof.
  repeat split.
  - run_script; f_equal; lra.
  - simpl; lra.
  - lra.
Qed.

(** C9: [clenshaw([2, -1, 0.5], 1) = 1.5], the sum of the coefficients as
    [T_k(1) = 1], and [clenshaw([2, -1, 0.5], -1) = 3.5], the alternating
    sum as [T_k(-1) = (-1)^k]. *)
Theorem clenshaw_endpoints :
  clenshaw [2; -1; 0.5] 1 = Ret 1.5 /\
  clenshaw [2; -1; 0.5] (-1) = Ret 3.5 /\
  (forall k, T k 1 = 1) /\
  (forall k, T k (-1) = (-1) ^ k).
Proof.
  repeat split.
  - run_script; f_equal; lra.
  - run_script; f_equal; lra.
  - intros k; enough (H : T k 1 = 1 /\ T (S k) 1 = 1) by apply H.
    induction k as [|k [IH0 IH1]]; [split; reflexivity|].
    split; [exact IH1|].
    rewrite T_rec, IH0, IH1; ring.
  - intros k;
      enough (H : T k (-1) = (-1) ^ k /\ T (S k) (-1) = (-1) ^ S k) by apply H.
    induction k as [|k [IH0 IH1]]; [split; simpl; ring|].
    split; [exact IH1|].
    rewrite T_rec, IH0, IH1; simpl; ring.
Qed.

(** C10: for every [n >= 0] the calls of [t(n, x)] descend along a
    well-founded order and [t(n, x)] returns (a stack of depth [n + 1] is
    enough), so [tpoly] returns on every finite coefficient sequence. *)
Theorem t_terminates (n : Z) (x : R) (c : list R) :
  (0 <= n)%Z ->
  Acc t_calls n /\
  (forall extra, t (S (Z.to_nat n) + extra) n x = Ret (T (Z.to_nat n) x)) /\
  (forall extra, tpoly (length c + extra) c x = Ret (cheb_sum c x 0)).
Proof.
  intros Hn; split; [|split].
  - rewrite <- (Z2Nat.id n Hn); apply (proj1 (t_calls_acc _)).
  - intros extra.
    pose proof (t_returns x (S (Z.to_nat n) + extra) (Z.to_nat n)) as H.
    rewrite Z2Nat.id in H by exact Hn.
    apply H; lia.
  - intros extra; apply tpoly_returns; lia.
Qed.

Lemma t_terminates_witness :
  (0 <= 5)%Z /\
  Acc t_calls 5%Z /\
  (forall extra, t (S (Z.to_nat 5) + extra) 5%Z 2 = Ret (T (Z.to_nat 5) 2)) /\
  (forall extra, tpoly (length [1; 2; 3] + extra) [1; 2; 3] 2
                 = Ret (cheb_sum [1; 2; 3] 2 0)).
Proof.
  split; [lia|].
  apply (t_terminates 5%Z 2 [1; 2; 3]); lia.
Defined.

(** * Further properties of the script *)

(** ** The oracle [t] *)

Section OracleFacts.

Variable x : R.

(** The least stack that lets [t(n, x)] return is [max 1 n] deep. *)
Lemma t_returns_tight (fuel n : nat) :
  (Nat.max 1 n <= fuel)%nat -> t fuel (Z.of_nat n) x = Ret (T n x).
Proof.
  revert n; induction fuel as [|fuel IH]; intros n Hn; [lia|].
  destruct n as [|[|n]]; try reflexivity.
  cbn [t].
  destruct (Z.eqb_spec (Z.of_nat (S (S n))) 0) as [E|_]; [lia|].
  destruct (Z.eqb_spec (Z.of_nat (S (S n))) 1) as [E|_]; [lia|].
  replace (Z.of_nat (S (S n)) - 1)%Z with (Z.of_nat (S n)) by lia.
  replace (Z.of_nat (S (S n)) - 2)%Z with (Z.of_nat n) by lia.
  rewrite !IH by lia.
  reflexivity.
Qed.

Lemma t_too_deep (fuel n : nat) :
  (fuel < Nat.max 1 n)%nat -> t fuel (Z.of_nat n) x = OutOfFuel.
Proof.
  revert n; induction fuel as [|fuel IH]; intros n Hn; [reflexivity|].
  destruct n as [|[|n]]; try lia.
  cbn [t].
  destruct (Z.eqb_spec (Z.of_nat (S (S n))) 0) as [E|_]; [lia|].
  destruct (Z.eqb_spec (Z.of_nat (S (S n))) 1) as [E|_]; [lia|].
  replace (Z.of_nat (S (S n)) - 1)%Z with (Z.of_nat (S n)) by lia.
  rewrite IH by lia.
  reflexivity.
Qed.

Lemma t_depth_nat (fuel n : nat) :
  t fuel (Z.of_nat n) x
  = if (Nat.max 1 n <=? fuel)%nat then Ret (T n x) else OutOfFuel.
Proof.
  destruct (Nat.leb_spec (Nat.max 1 n) fuel) as [H|H].
  - apply t_returns_tight; exact H.
  - apply t_too_deep; exact H.
Qed.

(** The counting variant computes the value of [t]. *)
Lemma t_counted_value (fuel : nat) (n : Z) :
  t fuel n x = (r <- t_counted fuel n x ;; Ret (fst r)).
Proof.
  revert n; induction fuel as [|fuel IH]; intros n; [reflexivity|].
  cbn [t t_counted].
  destruct (n =? 0)%Z; [reflexivity|].
  destruct (n =? 1)%Z; [reflexivity|].
  rewrite !IH.
  destruct (t_counted fuel (n - 1) x) as [[t1 c1]| |]; try reflexivity.
  destruct (t_counted fuel (n - 2) x) as [[t2 c2]| |]; reflexivity.
Qed.

Lemma t_counted_returns (fuel n : nat) :
  (Nat.max 1 n <= fuel)%nat ->
  t_counted fuel (Z.of_nat n) x = Ret (T n x, (2 * fib (S n) - 1)%nat).
Proof.
  revert n; induction fuel as [|fuel IH]; intros n Hn; [lia|].
  destruct n as [|[|n]]; try reflexivity.
  cbn [t_counted].
  destruct (Z.eqb_spec (Z.of_nat (S (S n))) 0) as [E|_]; [lia|].
  destruct (Z.eqb_spec (Z.of_nat (S (S n))) 1) as [E|_]; [lia|].
  replace (Z.of_nat (S (S n)) - 1)%Z with (Z.of_nat (S n)) by lia.
  replace (Z.of_nat (S (S n)) - 2)%Z with (Z.of_nat n) by lia.
  rewrite !IH by lia.
  cbn [bind]; do 2 f_equal.
  assert (H1 : (1 <= fib (S n))%nat) by (clear; induction n as [|[|n] IHn]; simpl in *; lia).
  assert (H2 : (1 <= fib (S (S n)))%nat) by (simpl in *; lia).
  change (fib (S (S (S n)))) with (fib (S (S n)) + fib (S n))%nat.
  lia.
Qed.

End OracleFacts.

(** The number of calls grows at least like [2^(n/2)]. *)
Lemma fib_lower (k : nat) :
  (2 ^ k <= fib (S (2 * k)))%nat /\ (2 ^ k <= fib (S (S (2 * k))))%nat.
Proof.
  induction k as [|k [IH1 IH2]]; [simpl; lia|].
  replace (2 * S k)%nat with (S (S (2 * k))) by lia.
  assert (E1 : fib (S (S (S (2 * k)))) = (fib (S (S (2 * k))) + fib (S (2 * k)))%nat)
    by reflexivity.
  assert (E2 : fib (S (S (S (S (2 * k)))))
               = (fib (S (S (S (2 * k)))) + fib (S (S (2 * k))))%nat)
    by reflexivity.
  rewrite Nat.pow_succ_r'; lia.
Qed.

(** ** The polynomials computed by [t] *)



Lemma T_opp (n : nat) (x : R) : T n (- x) = (-1) ^ n * T n x.
Proof.
  enough (H : T n (- x) = (-1) ^ n * T n x
              /\ T (S n) (- x) = (-1) ^ S n * T (S n) x) by apply H.
  induction n as [|n [IH0 IH1]]; [split; simpl; ring|].
  split; [exact IH1|].
  rewrite !T_rec, IH0, IH1; simpl; ring.
Qed.


(** ** The value of a series *)






(** ** The stack [tpoly] needs *)

Section TpolyDepth.

Variables (x : R) (fuel : nat).

(** The passes of the summation loop whose index the stack can bear. *)
Lemma tpoly_loop_tight (suf pre post : list R) (acc : R) :
  (forall i, (length pre <= i < length pre + length suf)%nat ->
             (Nat.max 1 i <= fuel)%nat) ->
  for_each (tpoly_body fuel (pre ++ suf ++ post) x)
           (map Z.of_nat (seq (length pre) (length suf))) acc
  = Ret (acc + cheb_sum suf x (length pre)).
Proof.
  revert pre acc; induction suf as [|s suf IH]; intros pre acc Hf.
  - simpl; f_equal; ring.
  - cbn [length seq map for_each cheb_sum].
    unfold tpoly_body at 1.
    change (Z.of_nat (length pre)) with (len pre).
    change ((s :: suf) ++ post) with (s :: suf ++ post).
    rewrite getitem_middle, bind_ret.
    unfold len; rewrite t_returns_tight, !bind_ret
      by (apply Hf; simpl; lia).
    replace (pre ++ s :: suf ++ post) with ((pre ++ [s]) ++ suf ++ post)
      by (now rewrite <- app_assoc).
    replace (S (length pre)) with (length (pre ++ [s]))
      by (rewrite length_app; simpl; lia).
    rewrite IH.
    + f_equal; ring.
    + intros i Hi; apply Hf; rewrite length_app in Hi; simpl in *; lia.
Qed.

Lemma seq_split (n m : nat) :
  (m < n)%nat -> seq 0 n = seq 0 m ++ m :: seq (S m) (n - S m).
Proof.
  intros H; replace n with (m + S (n - S m))%nat at 1 by lia.
  rewrite seq_app; reflexivity.
Qed.

Lemma tpoly_depth (c : list R) :
  tpoly fuel c x
  = if orb (length c =? 0)%nat (Nat.max 1 (length c - 1) <=? fuel)%nat
    then Ret (cheb_sum c x 0) else OutOfFuel.
Proof.
  unfold tpoly; unfold len at 1; rewrite range_of_nat.
  destruct (Nat.eqb_spec (length c) 0) as [E0|E0]; cbn [orb].
  { destruct c; [simpl; f_equal; ring | discriminate]. }
  destruct (Nat.leb_spec (Nat.max 1 (length c - 1)) fuel) as [H|H].
  - pose proof (tpoly_loop_tight c [] [] 0) as L.
    rewrite app_nil_r in L; cbn [app length] in L.
    etransitivity; [apply L; intros i Hi; lia|].
    f_equal; ring.
  - (* the first index the stack cannot bear *)
    set (m := match fuel with O => O | S _ => S fuel end).
    assert (Hm : (m < length c)%nat) by (subst m; destruct fuel; lia).
    assert (Hbad : (fuel < Nat.max 1 m)%nat) by (subst m; destruct fuel; lia).
    assert (Hok : forall i, (i < m)%nat -> (Nat.max 1 i <= fuel)%nat)
      by (subst m; intros i Hi; destruct fuel; lia).
    assert (Hc : exists c1 v r, c = c1 ++ v :: r /\ length c1 = m).
    { destruct (skipn m c) as [|v r] eqn:Er.
      - apply (f_equal (@length R)) in Er; rewrite length_skipn in Er;
          simpl in Er; lia.
      - exists (firstn m c), v, r; split.
        + now rewrite <- Er, firstn_skipn.
        + rewrite length_firstn; lia. }
    destruct Hc as (c1 & v & r & -> & Hl).
    rewrite (seq_split _ _ Hm), map_app, for_each_app.
    pose proof (tpoly_loop_tight c1 [] (v :: r) 0) as L.
    cbn [app length] in L; rewrite Hl in L.
    fold (tpoly_body fuel (c1 ++ v :: r) x).
    rewrite L by (intros i Hi; apply Hok; lia).
    rewrite bind_ret; cbn [map for_each]; unfold tpoly_body at 1.
    rewrite <- Hl at 1; change (Z.of_nat (length c1)) with (len c1).
    rewrite getitem_middle, bind_ret.
    rewrite t_too_deep by exact Hbad.
    reflexivity.
Qed.

End TpolyDepth.

(** ** The closing loop *)








(** ** [clenshaw] on its own general path *)


Lemma cheb_sum_map_opp (a : list R) (x : R) (j : nat) :
  cheb_sum (map Ropp a) x j = - cheb_sum a x j.
Proof.
  revert j; induction a as [|c a IH]; intros j; [simpl; ring|].
  cbn [map cheb_sum]; rewrite IH; ring.
Qed.

Lemma cheb_sum_alternate (a : list R) (x : R) (j : nat) :
  cheb_sum a (- x) j = (-1) ^ j * cheb_sum (alternate a) x j.
Proof.
  revert j; induction a as [|c a IH]; intros j; [simpl; ring|].
  cbn [alternate cheb_sum].
  rewrite IH, T_opp, cheb_sum_map_opp; simpl; ring.
Qed.

Lemma fib_half (n : nat) : (2 ^ (n / 2) <= fib (S n))%nat.
Proof.
  destruct (Nat.Even_or_Odd n) as [[k ->]|[k ->]].
  - replace (2 * k / 2)%nat with k
      by (rewrite Nat.mul_comm, Nat.div_mul; lia).
    apply fib_lower.
  - replace ((2 * k + 1) / 2)%nat with k
      by (apply (Nat.div_unique _ _ _ 1%nat); lia).
    replace (S (2 * k + 1)) with (S (S (2 * k))) by lia.
    apply fib_lower.
Qed.

(** * Properties beyond the specification *)

(** X1: [t(n, x)] with [n < 0] never returns, however deep the stack. *)
Theorem t_negative_never_returns (fuel : nat) (n : Z) (x : R) :
  (n < 0)%Z -> t fuel n x = OutOfFuel.
Proof. apply t_negative. Qed.

Lemma t_negative_never_returns_witness :
  (-1 < 0)%Z /\ t 50 (-1) 2 = OutOfFuel.
Proof.
  split; [lia|].
  apply (t_negative_never_returns 50 (-1) 2); lia.
Defined.

(** X2: for [n >= 0], [t(n, x)] returns [T_n(x)] exactly when the stack
    allows [max(1, n)] nested calls, and runs out of stack otherwise. *)
Theorem t_stack_depth (fuel : nat) (n : Z) (x : R) :
  (0 <= n)%Z ->
  t fuel n x
  = if (Nat.max 1 (Z.to_nat n) <=? fuel)%nat
    then Ret (T (Z.to_nat n) x) else OutOfFuel.
Proof.
  intros Hn; rewrite <- (Z2Nat.id n Hn) at 1; apply t_depth_nat.
Qed.

Lemma t_stack_depth_witness :
  (0 <= 3)%Z /\
  t 2 3 2
  = if (Nat.max 1 (Z.to_nat 3) <=? 2)%nat
    then Ret (T (Z.to_nat 3) 2) else OutOfFuel.
Proof.
  split; [lia|].
  apply (t_stack_depth 2 3 2); lia.
Defined.

(** X3: computing [t(n, x)] takes [2 F(n+1) - 1] calls of [t], with [F] the
    Fibonacci numbers: at least [2^(n/2)] of them.  The counting variant
    returns the value [t] returns. *)
Theorem t_call_count (fuel n : nat) (x : R) :
  (Nat.max 1 n <= fuel)%nat ->
  t_counted fuel (Z.of_nat n) x = Ret (T n x, (2 * fib (S n) - 1)%nat) /\
  t fuel (Z.of_nat n) x
  = (r <- t_counted fuel (Z.of_nat n) x ;; Ret (fst r)) /\
  (2 ^ (n / 2) <= 2 * fib (S n) - 1)%nat.
Proof.
  intros Hf; split; [|split].
  - apply t_counted_returns; exact Hf.
  - apply t_counted_value.
  - pose proof (fib_half n) as H.
    assert (1 <= 2 ^ (n / 2))%nat by (apply Nat.neq_0_lt_0, Nat.pow_nonzero; lia).
    lia.
Qed.

Lemma t_call_count_witness :
  (Nat.max 1 6 <= 6)%nat /\
  t_counted 6 (Z.of_nat 6) 2 = Ret (T 6 2, (2 * fib 7 - 1)%nat) /\
  t 6 (Z.of_nat 6) 2 = (r <- t_counted 6 (Z.of_nat 6) 2 ;; Ret (fst r)) /\
  (2 ^ (6 / 2) <= 2 * fib 7 - 1)%nat.
Proof.
  split; [simpl; lia|].
  apply (t_call_count 6 6 2); simpl; lia.
Defined.




(** X6: [t(n, -x) = (-1)^n * t(n, x)]. *)
Theorem t_parity (n extra : nat) (x : R) :
  exists v,
    t (Nat.max 1 n + extra) (Z.of_nat n) x = Ret v /\
    t (Nat.max 1 n + extra) (Z.of_nat n) (- x) = Ret ((-1) ^ n * v).
Proof.
  exists (T n x); rewrite !t_returns_tight by lia.
  split; [reflexivity|]; f_equal; apply T_opp.
Qed.








(** X13: [tpoly(c, x)] never raises: it returns the sum of [c_i * T_i(x)]
    when [c] is empty or the stack allows [max(1, len(c) - 1)] nested calls
    of [t], and runs out of stack otherwise. *)
Theorem tpoly_stack_depth (fuel : nat) (c : list R) (x : R) :
  tpoly fuel c x
  = if orb (length c =? 0)%nat (Nat.max 1 (length c - 1) <=? fuel)%nat
    then Ret (cheb_sum c x 0) else OutOfFuel.
Proof. apply tpoly_depth. Qed.

(** X14: [clenshaw(a, -x)] is [clenshaw] at [x] of the coefficients with
    the odd-index signs flipped. *)
Theorem clenshaw_reflect (a : list R) (x : R) :
  clenshaw a (- x) = clenshaw (alternate a) x.
Proof.
  rewrite !clenshaw_value, cheb_sum_alternate; f_equal; simpl; ring.
Qed.




